(** * menuPlugin: the Qt Designer plugin of the [menu] widget

    A shallow embedding of [qt creator/assets/menuplugin.cpp].  The plugin
    object carries one data member of its own, [m_initialized]; its methods
    are modelled as commands over a world made of that object and of the heap
    of widgets that [new] allocates into. *)

From Stdlib Require Import Ascii String.
From stdpp Require Import base strings gmap.

Local Open Scope string_scope.

(** ** The Qt types the plugin mentions *)

Module Qt.

(** A C++ pointer: [nullptr] or the address of an object. *)
Inductive ptr : Type :=
| nullptr
| addr (l : positive).

#[global] Instance ptr_eq_dec : EqDecision ptr.
Proof. solve_decision. Defined.

(** [QString], and the [QLatin1String] view of a narrow string literal
    that the methods convert to it. *)
Definition QString : Type := string.
Definition QLatin1String (literal : string) : QString := literal.

(** [QIcon]: the default constructor [QIcon()] builds the null icon. *)
Inductive QIcon : Type :=
| QIcon_default
| QIcon_fromFile (fileName : QString).

Definition QIcon_isNull (i : QIcon) : bool :=
  match i with
  | QIcon_default => true
  | QIcon_fromFile _ => false
  end.

(** The dynamic class of a widget living on the heap. *)
Inductive WidgetClass : Type :=
| class_QWidget
| class_menu.

Record QWidget : Type := mkQWidget {
  w_class : WidgetClass;
  w_parent : ptr
}.

End Qt.
Import Qt.

(** ** The plugin object and the world it runs in *)

(** The [QObject] base sub-object keeps the parent handed to the
    constructor; [m_initialized] is the only member the class adds. *)
Record menuPlugin : Type := mkMenuPlugin {
  qobject_parent : ptr;
  m_initialized : bool
}.

Record World : Type := mkWorld {
  this : menuPlugin;
  heap : gmap positive QWidget
}.

Definition set_m_initialized (b : bool) (w : World) : World :=
  {| this := {| qobject_parent := qobject_parent (this w);
                m_initialized := b |};
     heap := heap w |}.

(** ** Commands: state passing with an early [return] *)

(** A statement either falls through to the next one with a value, or
    leaves the enclosing function with the function's result. *)
Inductive Outcome (R A : Type) : Type :=
| Continue (a : A)
| Returned (r : R).
Arguments Continue {R A} a.
Arguments Returned {R A} r.

Definition Cmd (R A : Type) : Type := World -> Outcome R A * World.

Definition pure {R A} (a : A) : Cmd R A := fun w => (Continue a, w).

Definition bind {R A B} (c : Cmd R A) (k : A -> Cmd R B) : Cmd R B :=
  fun w =>
    match c w with
    | (Continue a, w') => k a w'
    | (Returned r, w') => (Returned r, w')
    end.

Definition return_ {R A} (r : R) : Cmd R A := fun w => (Returned r, w).

Definition when_ {R} (b : bool) (c : Cmd R unit) : Cmd R unit :=
  if b then c else pure tt.

Definition load_m_initialized {R} : Cmd R bool :=
  fun w => (Continue (m_initialized (this w)), w).

Definition store_m_initialized {R} (b : bool) : Cmd R unit :=
  fun w => (Continue tt, set_m_initialized b w).

Notation "x <- c ;; k" := (bind c (fun x => k))
  (at level 100, c at next level, right associativity).
Notation "c ;; k" := (bind c (fun _ => k))
  (at level 100, right associativity).

(** Calling a function whose body is [c].  A [void] body may fall off its
    end; a body with a result type can only leave through [return]. *)
Definition call_void (c : Cmd unit unit) (w : World) : unit * World :=
  match c w with
  | (Continue u, w') => (u, w')
  | (Returned u, w') => (u, w')
  end.

Definition call {R} (c : Cmd R Empty_set) (w : World) : R * World :=
  match c w with
  | (Returned r, w') => (r, w')
  | (Continue e, _) => match e with end
  end.

(** ** The methods of [menuPlugin] *)

Section Construction.

(** The value [m_initialized] starts with is fixed by the member's
    declaration in [menuplugin.h]; the constructor body is empty and its
    initializer list names only the [QObject] base. *)
Variable m_initialized_init : bool.

Definition menuPlugin_ctor (parent : ptr) : menuPlugin :=
  {| qobject_parent := parent; m_initialized := m_initialized_init |}.

Definition fresh_world (parent : ptr) (h : gmap positive QWidget) : World :=
  {| this := menuPlugin_ctor parent; heap := h |}.

End Construction.

(** [void menuPlugin::initialize(QDesignerFormEditorInterface * /* core */)] *)
Definition initialize (_ : ptr) : Cmd unit unit :=
  initialized <- load_m_initialized ;;
  when_ initialized (return_ tt) ;;
  (* Add extension registrations, etc. here *)
  store_m_initialized true.

(** [bool menuPlugin::isInitialized() const] *)
Definition isInitialized : Cmd bool Empty_set :=
  initialized <- load_m_initialized ;;
  return_ initialized.

(** Modelled from the spec: the constructor of the wrapped widget class
    [menu], declared in [menu.h], which is not among the sources.  The spec
    describes the new instance as "parented to a caller-supplied
    container", so the constructor hands its argument on as the widget's
    parent. *)
Definition menu_ctor (parent : ptr) : QWidget :=
  {| w_class := class_menu; w_parent := parent |}.

(** A [new] expression: the object is placed at an address no live widget
    occupies, and the expression's value is that address. *)
Definition new_ {R} (obj : QWidget) : Cmd R ptr :=
  fun w =>
    let l := fresh (dom (heap w)) in
    (Continue (addr l), {| this := this w; heap := <[l := obj]> (heap w) |}).

(** [QWidget *menuPlugin::createWidget(QWidget *parent)] *)
Definition createWidget (parent : ptr) : Cmd ptr Empty_set :=
  p <- new_ (menu_ctor parent) ;;
  return_ p.

(** [QString menuPlugin::name() const] *)
Definition name : Cmd QString Empty_set :=
  return_ (QLatin1String "menu").

(** [QString menuPlugin::group() const] *)
Definition group : Cmd QString Empty_set :=
  return_ (QLatin1String "").

(** [QIcon menuPlugin::icon() const] *)
Definition icon : Cmd QIcon Empty_set :=
  return_ QIcon_default.

(** [QString menuPlugin::toolTip() const] *)
Definition toolTip : Cmd QString Empty_set :=
  return_ (QLatin1String "").

(** [QString menuPlugin::whatsThis() const] *)
Definition whatsThis : Cmd QString Empty_set :=
  return_ (QLatin1String "").

(** [bool menuPlugin::isContainer() const] *)
Definition isContainer : Cmd bool Empty_set :=
  return_ false.

(** The two characters of the raw string literal in [domXml] that a
    quoted literal here cannot hold: the double quote and the line feed. *)
Definition dq : string := String "034"%char "".
Definition lf : string := String "010"%char "".

(** [QString menuPlugin::domXml() const] *)
Definition domXml : Cmd QString Empty_set :=
  return_ (QLatin1String
    ("<widget class=" +:+ dq +:+ "menu" +:+ dq +:+
     " name=" +:+ dq +:+ "menu" +:+ dq +:+ ">" +:+ lf +:+ "</widget>")).

(** [QString menuPlugin::includeFile() const] *)
Definition includeFile : Cmd QString Empty_set :=
  return_ (QLatin1String "menu.h").

(** ** Histories of calls *)

(** The const accessors that describe the widget to the designer. *)
Inductive Accessor : Type :=
| AName | AGroup | AIcon | AToolTip | AWhatsThis
| AIsContainer | ADomXml | AIncludeFile.

(** One call on the plugin, with its arguments. *)
Inductive Op : Type :=
| OpInitialize (core : ptr)
| OpIsInitialized
| OpCreateWidget (parent : ptr)
| OpAccessor (a : Accessor).

(** What a call hands back to the designer. *)
Inductive Value : Type :=
| VVoid
| VBool (b : bool)
| VString (s : QString)
| VIcon (i : QIcon)
| VWidget (p : ptr).

Definition lift {R} (inj : R -> Value) (r : R * World) : Value * World :=
  (inj (fst r), snd r).

Definition accessor (a : Accessor) (w : World) : Value * World :=
  match a with
  | AName => lift VString (call name w)
  | AGroup => lift VString (call group w)
  | AIcon => lift VIcon (call icon w)
  | AToolTip => lift VString (call toolTip w)
  | AWhatsThis => lift VString (call whatsThis w)
  | AIsContainer => lift VBool (call isContainer w)
  | ADomXml => lift VString (call domXml w)
  | AIncludeFile => lift VString (call includeFile w)
  end.

Definition exec (op : Op) (w : World) : Value * World :=
  match op with
  | OpInitialize core => lift (fun _ => VVoid) (call_void (initialize core) w)
  | OpIsInitialized => lift VBool (call isInitialized w)
  | OpCreateWidget parent => lift VWidget (call (createWidget parent) w)
  | OpAccessor a => accessor a w
  end.

(** The world after a sequence of calls, oldest first. *)
Fixpoint run (ops : list Op) (w : World) : World :=
  match ops with
  | [] => w
  | op :: ops' => run ops' (snd (exec op w))
  end.

(** The values the calls of a sequence handed back, oldest first. *)
Fixpoint results (ops : list Op) (w : World) : list Value :=
  match ops with
  | [] => []
  | op :: ops' => fst (exec op w) :: results ops' (snd (exec op w))
  end.

(** ** Observations on a history *)

Definition is_initialize (op : Op) : bool :=
  match op with
  | OpInitialize _ => true
  | _ => false
  end.

Definition is_createWidget (op : Op) : bool :=
  match op with
  | OpCreateWidget _ => true
  | _ => false
  end.

(** Whether a body ran to its end instead of leaving through [return]. *)
Definition ran_to_end {R A} (o : Outcome R A) : bool :=
  match o with
  | Continue _ => true
  | Returned _ => false
  end.

(** How many calls of [initialize] in a history got past the guard, to the
    place where the source would register its extensions. *)
Fixpoint setups (ops : list Op) (w : World) : nat :=
  match ops with
  | [] => 0
  | op :: ops' =>
      match op with
      | OpInitialize core =>
          if ran_to_end (fst (initialize core w)) then 1 else 0
      | _ => 0
      end + setups ops' (snd (exec op w))
  end.

(** The widget pointers among the values a history handed back. *)
Fixpoint widgets (vs : list Value) : list ptr :=
  match vs with
  | [] => []
  | VWidget p :: vs' => p :: widgets vs'
  | _ :: vs' => widgets vs'
  end.


(** ** Reading the XML fragment of [domXml]

    The designer reads the fragment as one element: a start tag with
    quoted attributes, character content, and the matching end tag.  The
    reader below is what the statements about [domXml] are phrased with. *)

Record Element : Type := mkElement {
  el_tag : string;
  el_attrs : list (string * string);
  el_content : string
}.

Inductive Mode : Type :=
| InTag            (* in the element's tag name *)
| InGap            (* between two attributes *)
| InKey            (* in an attribute's name *)
| InEq             (* after [=], before the opening quote *)
| InValue.         (* inside a quoted attribute value *)

Definition snoc (s : string) (c : ascii) : string := s +:+ String c "".

Definition is_char (c d : ascii) : bool := bool_decide (c = d).

(** The start tag, after its [<]: the tag name, the attributes in order,
    and the text that follows the closing [>]. *)
Fixpoint read_start (m : Mode) (tag key cur : string)
    (attrs : list (string * string)) (s : string)
    : option (string * list (string * string) * string) :=
  match s with
  | EmptyString => None
  | String c rest =>
    match m with
    | InTag =>
        if is_char c ">" then Some (tag, attrs, rest)
        else if is_char c " " then read_start InGap tag key cur attrs rest
        else read_start InTag (snoc tag c) key cur attrs rest
    | InGap =>
        if is_char c ">" then Some (tag, attrs, rest)
        else if is_char c " " then read_start InGap tag key cur attrs rest
        else read_start InKey tag (String c "") "" attrs rest
    | InKey =>
        if is_char c "=" then read_start InEq tag key cur attrs rest
        else if is_char c " " then None
        else if is_char c ">" then None
        else read_start InKey tag (snoc key c) cur attrs rest
    | InEq =>
        if is_char c "034" then read_start InValue tag key "" attrs rest
        else None
    | InValue =>
        if is_char c "034"
        then read_start InGap tag "" "" (attrs ++ [(key, cur)]) rest
        else read_start InValue tag key (snoc cur c) attrs rest
    end
  end.

(** The character content up to the next [<], and what starts there. *)
Fixpoint read_content (s : string) : string * string :=
  match s with
  | EmptyString => ("", "")
  | String c rest =>
      if is_char c "<" then ("", s)
      else let '(text, tail) := read_content rest in (String c text, tail)
  end.

Definition read_element (s : string) : option Element :=
  match s with
  | String "<" body =>
      match read_start InTag "" "" "" [] body with
      | Some (tag, attrs, after) =>
          let '(text, tail) := read_content after in
          if bool_decide (tail = "</" +:+ tag +:+ ">")
          then Some {| el_tag := tag; el_attrs := attrs; el_content := text |}
          else None
      | None => None
      end
  | _ => None
  end.

(** The value of the first attribute called [key]. *)
Fixpoint attribute (key : string) (attrs : list (string * string))
    : option string :=
  match attrs with
  | [] => None
  | (k, v) :: attrs' =>
      if bool_decide (k = key) then Some v else attribute key attrs'
  end.

(** * Properties *)

Example domXml_literal (w : World) :
  String.length (fst (call domXml w)) = 43
  /\ read_element (fst (call domXml w))
     = Some {| el_tag := "widget";
               el_attrs := [("class", "menu"); ("name", "menu")];
               el_content := lf |}.
Proof. split; vm_compute; reflexivity. Qed.

(** ** What one call of [initialize] does *)

(** On a plugin that is already initialized the [if] is taken. *)
Lemma initialize_guarded (core : ptr) (w : World) :
  m_initialized (this w) = true ->
  initialize core w = (Returned tt, w).
Proof.
  intros Hflag. unfold initialize, bind, load_m_initialized.
  rewrite Hflag. reflexivity.
Qed.

(** Otherwise the body runs to its end and sets the flag. *)
Lemma initialize_first (core : ptr) (w : World) :
  m_initialized (this w) = false ->
  initialize core w = (Continue tt, set_m_initialized true w).
Proof.
  intros Hflag. unfold initialize, bind, load_m_initialized.
  rewrite Hflag. reflexivity.
Qed.

Lemma initialize_sets_flag (core : ptr) (w : World) :
  m_initialized (this (snd (call_void (initialize core) w))) = true.
Proof.
  unfold call_void.
  destruct (m_initialized (this w)) eqn:Hflag.
  - rewrite (initialize_guarded core w Hflag). exact Hflag.
  - rewrite (initialize_first core w Hflag). reflexivity.
Qed.

(** ** Frame lemmas *)

Lemma call_isInitialized (w : World) :
  call isInitialized w = (m_initialized (this w), w).
Proof. reflexivity. Qed.

Lemma accessor_world (a : Accessor) (w : World) : snd (accessor a w) = w.
Proof. destruct a; reflexivity. Qed.

(** No call clears the flag. *)
Lemma exec_keeps_flag (op : Op) (w : World) :
  m_initialized (this w) = true ->
  m_initialized (this (snd (exec op w))) = true.
Proof.
  intros Hflag. destruct op as [core | | parent | a]; simpl.
  - apply initialize_sets_flag.
  - exact Hflag.
  - exact Hflag.
  - rewrite accessor_world. exact Hflag.
Qed.

Lemma run_keeps_flag (ops : list Op) (w : World) :
  m_initialized (this w) = true ->
  m_initialized (this (run ops w)) = true.
Proof.
  revert w. induction ops as [| op ops IH]; intros w Hflag; simpl.
  - exact Hflag.
  - apply IH, exec_keeps_flag, Hflag.
Qed.

(** ** The claims *)

(** C1. [initialize] is idempotent: in a world where [initialize] has
    already run, directly or with any other calls in between, a further
    call leaves through the early [return] and hands back the world it was
    given, whatever the core arguments are. *)
Theorem initialize_idempotent (w : World) (core1 core2 : ptr) (between : list Op) :
  let w1 := snd (call_void (initialize core1) w) in
  let w2 := run between w1 in
  initialize core2 w1 = (Returned tt, w1)
  /\ call_void (initialize core2) w1 = (tt, w1)
  /\ initialize core2 w2 = (Returned tt, w2)
  /\ call_void (initialize core2) w2 = (tt, w2).
Proof.
  intros w1 w2.
  assert (H1 : m_initialized (this w1) = true)
    by apply initialize_sets_flag.
  assert (H2 : m_initialized (this w2) = true)
    by (apply run_keeps_flag, H1).
  unfold call_void.
  rewrite (initialize_guarded core2 w1 H1), (initialize_guarded core2 w2 H2).
  repeat split.
Qed.

(** C2. After [initialize], [isInitialized] answers [true]; on a plugin
    that was just constructed it answers the value the member
    [m_initialized] starts with. *)
Theorem isInitialized_reads_flag
    (w : World) (core : ptr)
    (init : bool) (parent : ptr) (h : gmap positive QWidget) :
  fst (call isInitialized (snd (call_void (initialize core) w))) = true
  /\ fst (call isInitialized (fresh_world init parent h)) = init.
Proof.
  split.
  - rewrite call_isInitialized. apply initialize_sets_flag.
  - reflexivity.
Qed.

(** C3. [m_initialized] is never cleared: from a state reached by any
    sequence of calls on a new plugin in which the flag is set, every
    further sequence of calls ends in a state in which it is still set. *)
Theorem m_initialized_never_cleared
    (init : bool) (parent : ptr) (h : gmap positive QWidget)
    (before after : list Op) :
  m_initialized (this (run before (fresh_world init parent h))) = true ->
  m_initialized (this (run after (run before (fresh_world init parent h)))) = true.
Proof. apply run_keeps_flag. Qed.

Lemma m_initialized_never_cleared_witness :
  let w0 := fresh_world false nullptr ∅ in
  let before := [OpAccessor AName; OpInitialize nullptr] in
  let after := [OpCreateWidget nullptr; OpIsInitialized;
                OpInitialize (addr 1); OpAccessor AIcon] in
  m_initialized (this w0) = false
  /\ m_initialized (this (run before w0)) = true
  /\ m_initialized (this (run after (run before w0))) = true.
Proof.
  intros w0 before after.
  split; [reflexivity |].
  split; [reflexivity |].
  apply (m_initialized_never_cleared false nullptr ∅ before after).
  reflexivity.
Defined.

(** C4. Each accessor hands back one fixed value: the same in every world,
    whatever [m_initialized] holds and whatever calls came before. *)
Theorem accessors_constant (a : Accessor) :
  exists v : Value,
    forall (w : World) (history : list Op),
      fst (exec (OpAccessor a) w) = v
      /\ fst (exec (OpAccessor a) (run history w)) = v.
Proof.
  destruct a; eexists; intros w history; split; cbn; reflexivity.
Qed.

(** C5. [createWidget] hands back the address of a widget that did not
    exist before the call, of class [menu] and with the caller's [parent]
    as its parent; the plugin object and every other widget are as they
    were. *)
Theorem createWidget_new_menu (parent : ptr) (w : World) :
  exists l : positive,
    let w' := snd (call (createWidget parent) w) in
    fst (call (createWidget parent) w) = addr l
    /\ heap w !! l = None
    /\ heap w' !! l = Some {| w_class := class_menu; w_parent := parent |}
    /\ this w' = this w
    /\ m_initialized (this w') = m_initialized (this w)
    /\ forall l' : positive, l' ≠ l -> heap w' !! l' = heap w !! l'.
Proof.
  exists (fresh (dom (heap w))). simpl.
  repeat split.
  - apply not_elem_of_dom, is_fresh.
  - apply lookup_insert_eq.
  - intros l' Hne. apply lookup_insert_ne. congruence.
Qed.

(** C6. The metadata names the widget class [menu]: [name] is "menu",
    [domXml] is one [widget] element whose [class] and [name] attributes
    are both "menu", and [includeFile] is "menu.h". *)
Theorem metadata_identifies_menu (w : World) :
  fst (call name w) = "menu"
  /\ (exists e : Element,
        read_element (fst (call domXml w)) = Some e
        /\ el_tag e = "widget"
        /\ attribute "class" (el_attrs e) = Some "menu"
        /\ attribute "name" (el_attrs e) = Some "menu")
  /\ fst (call includeFile w) = "menu.h".
Proof.
  split; [reflexivity |]. split; [| reflexivity].
  destruct (domXml_literal w) as [_ Hread].
  eexists. split; [exact Hread |].
  repeat split.
Qed.

(** C7. The accessors and [isInitialized] are pure: each hands back the
    very world it was called in, [m_initialized] included. *)
Theorem const_methods_pure (w : World) :
  (forall a : Accessor,
      snd (exec (OpAccessor a) w) = w
      /\ m_initialized (this (snd (exec (OpAccessor a) w)))
         = m_initialized (this w))
  /\ snd (exec OpIsInitialized w) = w
  /\ snd (call isInitialized w) = w.
Proof.
  split.
  - intros a. simpl. rewrite accessor_world. split; reflexivity.
  - split; reflexivity.
Qed.

(** C8. [initialize] never reads its core argument: with any two
    arguments it leaves the same way and in the same world. *)
Theorem initialize_ignores_core (w : World) (core1 core2 : ptr) :
  initialize core1 w = initialize core2 w
  /\ snd (call_void (initialize core1) w)
     = snd (call_void (initialize core2) w).
Proof. split; reflexivity. Qed.

(** C9. [isContainer] answers [false] in every world, after any history
    of calls. *)
Theorem isContainer_false (w : World) (history : list Op) :
  fst (call isContainer w) = false
  /\ fst (exec (OpAccessor AIsContainer) (run history w)) = VBool false.
Proof. split; reflexivity. Qed.

(** C10. The optional display metadata is empty: [group], [toolTip] and
    [whatsThis] are the empty string and [icon] is the default-constructed
    icon, which is null. *)
Theorem display_metadata_empty (w : World) :
  fst (call group w) = ""
  /\ fst (call toolTip w) = ""
  /\ fst (call whatsThis w) = ""
  /\ fst (call icon w) = QIcon_default
  /\ QIcon_isNull (fst (call icon w)) = true.
Proof. repeat split. Qed.

(** * Further properties of the methods *)

Local Open Scope list_scope.

(** ** What one call changes *)

Lemma initialize_heap (core : ptr) (w : World) :
  heap (snd (call_void (initialize core) w)) = heap w.
Proof.
  unfold call_void.
  destruct (m_initialized (this w)) eqn:Hflag.
  - rewrite (initialize_guarded core w Hflag). reflexivity.
  - rewrite (initialize_first core w Hflag). reflexivity.
Qed.

Lemma initialize_parent (core : ptr) (w : World) :
  qobject_parent (this (snd (call_void (initialize core) w)))
  = qobject_parent (this w).
Proof.
  unfold call_void.
  destruct (m_initialized (this w)) eqn:Hflag.
  - rewrite (initialize_guarded core w Hflag). reflexivity.
  - rewrite (initialize_first core w Hflag). reflexivity.
Qed.

Lemma exec_flag (op : Op) (w : World) :
  m_initialized (this (snd (exec op w)))
  = m_initialized (this w) || is_initialize op.
Proof.
  destruct op as [core | | parent | a]; simpl.
  - rewrite initialize_sets_flag. symmetry. apply orb_true_r.
  - symmetry. apply orb_false_r.
  - symmetry. apply orb_false_r.
  - rewrite accessor_world. symmetry. apply orb_false_r.
Qed.

Lemma exec_parent (op : Op) (w : World) :
  qobject_parent (this (snd (exec op w))) = qobject_parent (this w).
Proof.
  destruct op as [core | | parent | a]; simpl.
  - apply initialize_parent.
  - reflexivity.
  - reflexivity.
  - rewrite accessor_world. reflexivity.
Qed.

Lemma exec_heap_other (op : Op) (w : World) :
  is_createWidget op = false ->
  heap (snd (exec op w)) = heap w /\ widgets [fst (exec op w)] = [].
Proof.
  destruct op as [core | | parent | a]; simpl; intros Hop.
  - split; [apply initialize_heap | reflexivity].
  - split; reflexivity.
  - discriminate Hop.
  - rewrite accessor_world. split; [reflexivity |].
    destruct a; reflexivity.
Qed.

Lemma exec_heap_create (parent : ptr) (w : World) :
  heap (snd (exec (OpCreateWidget parent) w))
  = <[fresh (dom (heap w)) := menu_ctor parent]> (heap w)
  /\ fst (exec (OpCreateWidget parent) w) = VWidget (addr (fresh (dom (heap w)))).
Proof. split; reflexivity. Qed.

(** The heap a call leaves, and the widget it hands back, depend on the
    world only through its heap. *)
Lemma exec_heap_congr (op : Op) (w w' : World) :
  heap w = heap w' ->
  heap (snd (exec op w)) = heap (snd (exec op w'))
  /\ widgets [fst (exec op w)] = widgets [fst (exec op w')].
Proof.
  intros Hheap.
  destruct (is_createWidget op) eqn:Hop.
  - destruct op as [core | | parent | a]; try discriminate Hop.
    destruct (exec_heap_create parent w) as [-> ->].
    destruct (exec_heap_create parent w') as [-> ->].
    rewrite Hheap. split; reflexivity.
  - destruct (exec_heap_other op w Hop) as [-> ->].
    destruct (exec_heap_other op w' Hop) as [-> ->].
    split; [exact Hheap | reflexivity].
Qed.

Lemma world_ext (w w' : World) :
  qobject_parent (this w) = qobject_parent (this w') ->
  m_initialized (this w) = m_initialized (this w') ->
  heap w = heap w' ->
  w = w'.
Proof.
  destruct w as [[parent flag] h], w' as [[parent' flag'] h']; simpl.
  intros -> -> ->. reflexivity.
Qed.

(** ** What a history changes *)

Lemma run_app (ops1 ops2 : list Op) (w : World) :
  run (ops1 ++ ops2) w = run ops2 (run ops1 w).
Proof.
  revert w. induction ops1 as [| op ops1 IH]; intros w; simpl.
  - reflexivity.
  - apply IH.
Qed.

Lemma results_app (ops1 ops2 : list Op) (w : World) :
  results (ops1 ++ ops2) w = results ops1 w ++ results ops2 (run ops1 w).
Proof.
  revert w. induction ops1 as [| op ops1 IH]; intros w; simpl.
  - reflexivity.
  - rewrite IH. reflexivity.
Qed.

Lemma widgets_cons (v : Value) (vs : list Value) :
  widgets (v :: vs) = widgets [v] ++ widgets vs.
Proof. destruct v; reflexivity. Qed.

Lemma widgets_app (vs1 vs2 : list Value) :
  widgets (vs1 ++ vs2) = widgets vs1 ++ widgets vs2.
Proof.
  induction vs1 as [| v vs1 IH].
  - reflexivity.
  - change ((v :: vs1) ++ vs2) with (v :: (vs1 ++ vs2)).
    rewrite (widgets_cons v (vs1 ++ vs2)), (widgets_cons v vs1), IH.
    apply app_assoc.
Qed.

Lemma widgets_results_cons (op : Op) (ops : list Op) (w : World) :
  widgets (results (op :: ops) w)
  = widgets [fst (exec op w)] ++ widgets (results ops (snd (exec op w))).
Proof. cbn [results]. apply widgets_cons. Qed.

Lemma run_flag (ops : list Op) (w : World) :
  m_initialized (this (run ops w))
  = m_initialized (this w) || existsb is_initialize ops.
Proof.
  revert w. induction ops as [| op ops IH]; intros w; simpl.
  - symmetry. apply orb_false_r.
  - rewrite IH, exec_flag. symmetry. apply orb_assoc.
Qed.

Lemma run_parent (ops : list Op) (w : World) :
  qobject_parent (this (run ops w)) = qobject_parent (this w).
Proof.
  revert w. induction ops as [| op ops IH]; intros w; simpl.
  - reflexivity.
  - rewrite IH. apply exec_parent.
Qed.

Lemma run_heap_congr (ops : list Op) (w w' : World) :
  heap w = heap w' ->
  heap (run ops w) = heap (run ops w')
  /\ widgets (results ops w) = widgets (results ops w').
Proof.
  revert w w'.
  induction ops as [| op ops IH]; intros w w' Hheap; cbn [run results].
  - split; [exact Hheap | reflexivity].
  - destruct (exec_heap_congr op w w' Hheap) as [Hstep Hval].
    destruct (IH _ _ Hstep) as [Hrun Hres].
    split; [exact Hrun |].
    rewrite (widgets_cons (fst (exec op w))).
    rewrite (widgets_cons (fst (exec op w'))).
    rewrite Hval, Hres. reflexivity.
Qed.





(** ** Properties of whole histories *)

(** X1. After any history, [isInitialized] answers [true] exactly when the
    flag was set at the start or the history holds a call of [initialize]:
    [createWidget] and the accessors never initialize the plugin. *)
Theorem isInitialized_after_history (ops : list Op) (w : World) :
  fst (call isInitialized (run ops w))
  = m_initialized (this w) || existsb is_initialize ops.
Proof. rewrite call_isInitialized. apply run_flag. Qed.

(** X2. Over a whole history the body of [initialize] gets past its guard
    at most once: exactly once when the plugin starts uninitialized and
    the history calls [initialize], and never otherwise. *)
Theorem setup_runs_at_most_once (ops : list Op) (w : World) :
  setups ops w
  = (if m_initialized (this w) then 0
     else if existsb is_initialize ops then 1 else 0)
  /\ setups ops w <= 1.
Proof.
  assert (Heq : forall ops w,
    setups ops w
    = if m_initialized (this w) then 0
      else if existsb is_initialize ops then 1 else 0).
  { clear ops w. induction ops as [| op ops IH]; intros w; cbn [setups existsb].
    - destruct (m_initialized (this w)); reflexivity.
    - rewrite IH, exec_flag.
      destruct op as [core | | parent | a]; cbn [is_initialize].
      + destruct (m_initialized (this w)) eqn:Hflag.
        * rewrite (initialize_guarded core w Hflag). reflexivity.
        * rewrite (initialize_first core w Hflag). reflexivity.
      + rewrite orb_false_r. reflexivity.
      + rewrite orb_false_r. reflexivity.
      + rewrite orb_false_r. reflexivity. }
  split; [apply Heq |].
  rewrite Heq.
  destruct (m_initialized (this w)), (existsb is_initialize ops); simpl; lia.
Qed.

(** X3. The [QObject] parent handed to the constructor stays the plugin's
    parent through every history: no method reassigns it. *)
Theorem qobject_parent_preserved
    (init : bool) (parent : ptr) (h : gmap positive QWidget) (ops : list Op) :
  qobject_parent (this (run ops (fresh_world init parent h))) = parent.
Proof. rewrite run_parent. reflexivity. Qed.





(** X7. It does not matter where in a history [initialize] is called: moved
    to the front, the call leaves the same final world and the same
    widgets are handed back. *)
Theorem initialize_position_irrelevant
    (core : ptr) (ops1 ops2 : list Op) (w : World) :
  run (ops1 ++ OpInitialize core :: ops2) w
  = run (OpInitialize core :: ops1 ++ ops2) w
  /\ widgets (results (ops1 ++ OpInitialize core :: ops2) w)
     = widgets (results (OpInitialize core :: ops1 ++ ops2) w).
Proof.
  assert (Hstart : heap (snd (exec (OpInitialize core) w)) = heap w)
    by apply (exec_heap_other (OpInitialize core) w eq_refl).
  assert (Hmid : heap (snd (exec (OpInitialize core) (run ops1 w)))
                 = heap (run ops1 w))
    by apply (exec_heap_other (OpInitialize core) (run ops1 w) eq_refl).
  destruct (run_heap_congr ops1 _ _ Hstart) as [Hheap1 Hres1].
  assert (Hheap : heap (snd (exec (OpInitialize core) (run ops1 w)))
                  = heap (run ops1 (snd (exec (OpInitialize core) w))))
    by (rewrite Hmid, Hheap1; reflexivity).
  destruct (run_heap_congr ops2 _ _ Hheap) as [Hheap2 Hres2].
  split.
  - apply world_ext.
    + rewrite !run_parent. reflexivity.
    + rewrite !run_flag, !existsb_app. cbn [existsb is_initialize].
      rewrite !orb_true_r. reflexivity.
    + rewrite run_app. cbn [run]. rewrite run_app. exact Hheap2.
  - rewrite results_app, widgets_app.
    rewrite (widgets_results_cons (OpInitialize core) ops2 (run ops1 w)).
    rewrite (widgets_results_cons (OpInitialize core) (ops1 ++ ops2) w).
    rewrite results_app, widgets_app.
    rewrite Hres1, Hres2. reflexivity.
Qed.

